(** * useHistoryState: a bounded undo/redo history hook

  Shallow embedding of [src/index.ts].  The hook keeps a record
  [{past; present; future}] in a [useReducer] cell and hands out the
  callbacks [setState], [undo], [redo] and [reset], each wrapped in
  [useCallback].

  JavaScript numbers that are used as lengths, indices and the [size]
  argument are integers here ([Z]); arrays are lists; the JavaScript value
  [undefined], which an out-of-range index evaluates to, is a distinguished
  element of the value type. *)

From Stdlib Require Import Bool String List ZArith Lia.
Import ListNotations.

Local Open Scope Z_scope.

(** ** JavaScript array primitives used by the hook *)

Module JsArray.
Section Ops.
Context {T : Type}.

(** [arr.length] *)
Definition len (arr : list T) : Z := Z.of_nat (length arr).

(** Relative index resolution of [Array.prototype.slice]: a negative
    argument counts from the end, and the result is clamped to [0, len]. *)
Definition relative (n k : Z) : Z :=
  if k <? 0 then Z.max (n + k) 0 else Z.min k n.

(** [arr.slice(start)] and [arr.slice(start, end)] *)
Definition slice (arr : list T) (start : Z) (end_ : option Z) : list T :=
  let n := len arr in
  let k := relative n start in
  let final := match end_ with
               | None => n
               | Some e => relative n e
               end in
  firstn (Z.to_nat (final - k)) (skipn (Z.to_nat k) arr).

(** [arr[i]]: [undefined] outside the array *)
Definition get (undefined : T) (arr : list T) (i : Z) : T :=
  if i <? 0 then undefined else nth (Z.to_nat i) arr undefined.

(** [!!arr.length] *)
Definition truthy_length (arr : list T) : bool := negb (len arr =? 0).
End Ops.
End JsArray.

(** ** React primitives, by their documented contract *)

Module React.

(** [useReducer(reducer, initialState)]: the state cell is filled with the
    initial state at mount and read back on every later render. *)
Definition useReducer {S : Type} (cell : option S) (initialState : S) : S :=
  match cell with
  | Some s => s
  | None => initialState
  end.

(** [useCallback(fn, deps)]: at mount the callback of this render is stored
    with its dependencies; on a later render the stored callback is returned
    as long as the dependencies compare equal, and replaced otherwise. *)
Definition useCallback {F D : Type} (same : D -> D -> bool)
    (cell : option (F * D)) (fn : F) (deps : D) : F * D :=
  match cell with
  | Some (fn0, deps0) => if same deps0 deps then (fn0, deps0) else (fn, deps)
  | None => (fn, deps)
  end.

(** The empty dependency list [[]] never changes. *)
Definition no_deps (_ _ : unit) : bool := true.

End React.

(** [new Error(message)] *)
Inductive Exn := Error (message : string).

(** The last [n] elements of a list. *)
Definition takeLast {T : Type} (n : nat) (arr : list T) : list T :=
  skipn (length arr - n) arr.

(** ** A concrete value type for examples: numbers and [undefined] *)

Inductive jsval := JUndefined | JNum (n : Z) | JNaN.

(** [(prev) => prev + 1]; [undefined + 1] is [NaN]. *)
Definition inc (prev : jsval) : jsval :=
  match prev with
  | JNum n => JNum (n + 1)
  | JUndefined | JNaN => JNaN
  end.

(** ** The reducer *)

Inductive ActionType := SET | SET_NOT_UNDOABLE | UNDO | REDO | RESET.

Section Hook.
Variable T : Type.
(** the JavaScript value [undefined] *)
Variable undefined : T.

Record IState := mkState {
  past : list T;
  present : T;
  future : list T;
}.

(** [Action | ActionWithoutPayload]: only [SET] and [SET_NOT_UNDOABLE]
    carry a payload. *)
Inductive Action :=
| Set_ (payload : T)
| SetNotUndoable (payload : T)
| Undo_
| Redo_
| Reset_.

Definition type (action : Action) : ActionType :=
  match action with
  | Set_ _ => SET
  | SetNotUndoable _ => SET_NOT_UNDOABLE
  | Undo_ => UNDO
  | Redo_ => REDO
  | Reset_ => RESET
  end.

(** [type ArgF = (state: T) => T; type Arg = T | ArgF] *)
Inductive Arg :=
| Value (v : T)
| Func (f : T -> T).

(** [typeof arg === 'function'] *)
Definition isFunc (arg : Arg) : bool :=
  match arg with
  | Value _ => false
  | Func _ => true
  end.

(** The arguments of the hook: [value] and [size] (default 20). *)
Variable value : T.
Variable size : Z.

Definition initState : IState :=
  {| past := []; present := value; future := [] |}.

(** The [switch] of [reducer]; its [default] branch cannot be reached from
    a well-typed action. *)
Definition reducer (state : IState) (action : Action) : IState :=
  match action with
  | Set_ payload =>
      {| past := JsArray.slice (past state) (- size) None ++ [present state];
         present := payload;
         future := future state |}
  | SetNotUndoable payload =>
      {| past := past state;
         present := payload;
         future := future state |}
  | Undo_ =>
      {| past := JsArray.slice (past state) 0
                   (Some (JsArray.len (past state) - 1));
         present := JsArray.get undefined (past state)
                      (JsArray.len (past state) - 1);
         future := future state ++ [present state] |}
  | Redo_ =>
      {| past := JsArray.slice (past state) size None ++ [present state];
         present := JsArray.get undefined (future state)
                      (JsArray.len (future state) - 1);
         future := JsArray.slice (future state) 0
                     (Some (JsArray.len (future state) - 1)) |}
  | Reset_ => initState
  end.

(** ** The callbacks and the hook body *)

(** What a call of one of the returned callbacks does: it hands an action to
    [dispatch], or it throws. *)
Inductive Outcome :=
| Dispatch (action : Action)
| Throw (e : Exn).

(** The body given to [useCallback] for [setState], closed over the [state]
    of the render that creates it; [notUndoAble] defaults to [false]. *)
Definition setState_body (state : IState)
    (payload : Arg) (notUndoAble : option bool) : Outcome :=
  let notUndoAble := match notUndoAble with
                     | Some b => b
                     | None => false
                     end in
  (* isFunc(payload) ? payload(state.present) : payload *)
  let newState := match payload with
                  | Func f => f (present state)
                  | Value v => v
                  end in
  Dispatch (if notUndoAble then SetNotUndoable newState else Set_ newState).

(** The bodies of [undo] and [redo], closed over [canUndo] and [canRedo]. *)
Definition undo_body (canUndo : bool) (_ : unit) : Outcome :=
  if canUndo then Dispatch Undo_ else Throw (Error "Undo not allowed").

Definition redo_body (canRedo : bool) (_ : unit) : Outcome :=
  if canRedo then Dispatch Redo_ else Throw (Error "Redo not allowed").

Definition reset_body (_ : unit) : Outcome := Dispatch Reset_.

(** The hook cells of one component instance, in call order: the
    [useReducer] cell, then one [useCallback] cell (callback and dependency
    list) for each of [setState], [undo], [redo] and [reset]. *)
Record Cells := mkCells {
  reducer_cell : IState;
  setState_cell : (Arg -> option bool -> Outcome) * unit;
  undo_cell : (unit -> Outcome) * bool;
  redo_cell : (unit -> Outcome) * bool;
  reset_cell : (unit -> Outcome) * unit;
}.

Record Handlers := mkHandlers {
  canUndo : bool;
  canRedo : bool;
  undo : unit -> Outcome;
  redo : unit -> Outcome;
  reset : unit -> Outcome;
}.

(** [type UseHistoryState = [T, (payload, notUndoAble?) => void, {...}]] *)
Definition UseHistoryState : Type :=
  T * (Arg -> option bool -> Outcome) * Handlers.

(** One render of the hook.  [cells] is [None] at mount and holds the cells
    left by the previous render afterwards. *)
Definition useHistoryState (cells : option Cells) : Cells * UseHistoryState :=
  let state := React.useReducer (option_map reducer_cell cells) initState in
  let canUndo := JsArray.truthy_length (past state) in
  let canRedo := JsArray.truthy_length (future state) in
  let setState :=
    React.useCallback React.no_deps (option_map setState_cell cells)
      (setState_body state) tt in
  let undo :=
    React.useCallback Bool.eqb (option_map undo_cell cells)
      (undo_body canUndo) canUndo in
  let redo :=
    React.useCallback Bool.eqb (option_map redo_cell cells)
      (redo_body canRedo) canRedo in
  let reset :=
    React.useCallback React.no_deps (option_map reset_cell cells)
      reset_body tt in
  ({| reducer_cell := state;
      setState_cell := setState;
      undo_cell := undo;
      redo_cell := redo;
      reset_cell := reset |},
   (present state, fst setState,
    {| canUndo := canUndo;
       canRedo := canRedo;
       undo := fst undo;
       redo := fst redo;
       reset := fst reset |})).

(** [dispatch(action)]: the reducer runs on the content of the state cell. *)
Definition dispatch (cells : Cells) (action : Action) : Cells :=
  {| reducer_cell := reducer (reducer_cell cells) action;
     setState_cell := setState_cell cells;
     undo_cell := undo_cell cells;
     redo_cell := redo_cell cells;
     reset_cell := reset_cell cells |}.

(** ** The store as its caller drives it

    One command at a time: the caller invokes a callback taken from the
    latest render; a dispatched action updates the state cell and the
    component renders again; a thrown error leaves everything as it is. *)

Inductive Command :=
| CallSet (payload : Arg) (notUndoAble : option bool)
| CallUndo
| CallRedo
| CallReset.

Definition Store : Type := Cells * UseHistoryState.

Definition mount : Store := useHistoryState None.

Definition state_of (s : Store) : IState := reducer_cell (fst s).

Definition call (s : Store) (c : Command) : Outcome :=
  let '(_, (_, setState, handlers)) := s in
  match c with
  | CallSet payload notUndoAble => setState payload notUndoAble
  | CallUndo => undo handlers tt
  | CallRedo => redo handlers tt
  | CallReset => reset handlers tt
  end.

Definition step (s : Store) (c : Command) : Store * option Exn :=
  match call s c with
  | Dispatch action => (useHistoryState (Some (dispatch (fst s) action)), None)
  | Throw e => (s, Some e)
  end.

(** A sequence of commands; a command that throws is skipped over by the
    caller and the following ones go on from the unchanged store. *)
Definition run (s : Store) (cs : list Command) : Store :=
  fold_left (fun s c => fst (step s c)) cs s.

Inductive reachable : Store -> Prop :=
| reachable_mount : reachable mount
| reachable_step s c : reachable s -> reachable (fst (step s c)).

(** The store a render leaves when the state cell holds [state].  The
    [undo] and [redo] cells follow [canUndo] and [canRedo]; the [setState]
    cell, whose dependency list is empty, keeps the callback created at
    mount, which is closed over [initState]. *)
Definition rendered (state : IState) : Store :=
  let canUndo := JsArray.truthy_length (past state) in
  let canRedo := JsArray.truthy_length (future state) in
  ({| reducer_cell := state;
      setState_cell := (setState_body initState, tt);
      undo_cell := (undo_body canUndo, canUndo);
      redo_cell := (redo_body canRedo, canRedo);
      reset_cell := (reset_body, tt) |},
   (present state, setState_body initState,
    {| canUndo := canUndo;
       canRedo := canRedo;
       undo := undo_body canUndo;
       redo := redo_body canRedo;
       reset := reset_body |})).

(** The three components of the tuple the hook returns:
    [[state.present, setState, {canUndo, canRedo, undo, redo, reset}]]. *)
Definition returned_present (s : Store) : T := fst (fst (snd s)).

Definition returned_setState (s : Store) : Arg -> option bool -> Outcome :=
  snd (fst (snd s)).

Definition handlers_of (s : Store) : Handlers := snd (snd s).

(** The errors thrown along a sequence of commands, in order. *)
Fixpoint thrown (s : Store) (cs : list Command) : list Exn :=
  match cs with
  | [] => []
  | c :: cs' =>
      match snd (step s c) with
      | Some e => e :: thrown (fst (step s c)) cs'
      | None => thrown (fst (step s c)) cs'
      end
  end.

(** Values, payloads, commands and states that stay within a set [P] of
    values. *)
Definition payload_within (P : T -> Prop) (payload : Arg) : Prop :=
  match payload with
  | Value v => P v
  | Func f => forall x, P x -> P (f x)
  end.

Definition command_within (P : T -> Prop) (c : Command) : Prop :=
  match c with
  | CallSet payload _ => payload_within P payload
  | CallUndo | CallRedo | CallReset => True
  end.

Definition state_within (P : T -> Prop) (state : IState) : Prop :=
  Forall P (past state) /\ P (present state) /\ Forall P (future state).

(** ** Facts about the array primitives *)

Lemma len_nonneg (arr : list T) : 0 <= JsArray.len arr.
Proof. unfold JsArray.len. lia. Qed.

Lemma len_app (a b : list T) :
  JsArray.len (a ++ b) = JsArray.len a + JsArray.len b.
Proof. unfold JsArray.len. rewrite length_app. lia. Qed.

Lemma len_nil_iff (arr : list T) : JsArray.len arr = 0 <-> arr = [].
Proof.
  unfold JsArray.len. destruct arr as [|x arr]; simpl; split; intro H;
    try reflexivity; try discriminate; lia.
Qed.

Lemma truthy_length_false (arr : list T) :
  JsArray.truthy_length arr = false <-> arr = [].
Proof.
  unfold JsArray.truthy_length. rewrite negb_false_iff, Z.eqb_eq.
  apply len_nil_iff.
Qed.

Lemma truthy_length_true (arr : list T) :
  JsArray.truthy_length arr = true <-> arr <> [].
Proof.
  rewrite <- truthy_length_false.
  destruct (JsArray.truthy_length arr); split; congruence.
Qed.

(** [arr.slice(k)] with [k >= 0] drops the first [k] elements. *)
Lemma slice_from (arr : list T) (k : Z) :
  0 <= k -> JsArray.slice arr k None = skipn (Z.to_nat k) arr.
Proof.
  intro Hk. unfold JsArray.slice, JsArray.relative, JsArray.len.
  destruct (k <? 0) eqn:E; [apply Z.ltb_lt in E; lia|].
  destruct (Z.le_gt_cases k (Z.of_nat (length arr))) as [Hle|Hgt].
  - rewrite Z.min_l by lia. apply firstn_all2. rewrite length_skipn. lia.
  - rewrite Z.min_r by lia. rewrite Z.sub_diag. simpl.
    symmetry. apply skipn_all2. lia.
Qed.

(** [arr.slice(-k)] with [k > 0] keeps the last [k] elements. *)
Lemma slice_last (arr : list T) (k : Z) :
  0 < k -> JsArray.slice arr (- k) None = takeLast (Z.to_nat k) arr.
Proof.
  intro Hk. unfold JsArray.slice, JsArray.relative, JsArray.len, takeLast.
  destruct (- k <? 0) eqn:E; [|apply Z.ltb_ge in E; lia].
  replace (Z.to_nat (Z.max (Z.of_nat (length arr) + - k) 0))
    with (length arr - Z.to_nat k)%nat by lia.
  apply firstn_all2. rewrite length_skipn. lia.
Qed.

(** [arr.slice(-0)] is [arr.slice(0)]: the whole array. *)
Lemma slice_minus_zero (arr : list T) : JsArray.slice arr (- 0) None = arr.
Proof. rewrite slice_from by reflexivity. reflexivity. Qed.

Lemma len_slice_last (arr : list T) (k : Z) :
  0 < k -> JsArray.len (JsArray.slice arr (- k) None) = Z.min (JsArray.len arr) k.
Proof.
  intro Hk. rewrite slice_last by assumption.
  unfold takeLast, JsArray.len. rewrite length_skipn. lia.
Qed.

Lemma len_slice_from (arr : list T) (k : Z) :
  0 <= k -> JsArray.len (JsArray.slice arr k None) = Z.max (JsArray.len arr - k) 0.
Proof.
  intro Hk. rewrite slice_from by assumption.
  unfold JsArray.len. rewrite length_skipn. lia.
Qed.

(** [arr.slice(0, arr.length - 1)] and [arr[arr.length - 1]] split a
    non-empty array into all but its last element, and its last element. *)
Lemma slice_init (init : list T) (x : T) :
  JsArray.slice (init ++ [x]) 0 (Some (JsArray.len (init ++ [x]) - 1)) = init.
Proof.
  unfold JsArray.slice, JsArray.relative.
  pose proof (len_nonneg init) as Hn. rewrite len_app.
  change (JsArray.len [x]) with 1.
  replace (JsArray.len init + 1 - 1) with (JsArray.len init) by lia.
  destruct (JsArray.len init <? 0) eqn:E; [apply Z.ltb_lt in E; lia|].
  simpl (0 <? 0). cbv iota.
  rewrite Z.min_l by lia. rewrite Z.min_l by lia.
  rewrite Z.sub_0_r. simpl skipn. unfold JsArray.len.
  rewrite Nat2Z.id, firstn_app, firstn_all, Nat.sub_diag. simpl.
  apply app_nil_r.
Qed.

Lemma get_last (init : list T) (x : T) :
  JsArray.get undefined (init ++ [x]) (JsArray.len (init ++ [x]) - 1) = x.
Proof.
  unfold JsArray.get. pose proof (len_nonneg init) as Hn. rewrite len_app.
  change (JsArray.len [x]) with 1.
  replace (JsArray.len init + 1 - 1) with (JsArray.len init) by lia.
  destruct (JsArray.len init <? 0) eqn:E; [apply Z.ltb_lt in E; lia|].
  unfold JsArray.len. rewrite Nat2Z.id. apply nth_middle.
Qed.

Lemma takeLast_rev (n : nat) (arr : list T) :
  takeLast n arr = rev (firstn n (rev arr)).
Proof.
  unfold takeLast. rewrite firstn_rev, rev_involutive. reflexivity.
Qed.

(** [isFunc] tells the two shapes of a payload apart. *)
Lemma isFunc_true (arg : Arg) :
  isFunc arg = true <-> exists f, arg = Func f.
Proof.
  destruct arg as [v|f]; cbn [isFunc]; split.
  - discriminate.
  - intros (f & E). discriminate.
  - intros _. exists f. reflexivity.
  - reflexivity.
Qed.

(** ** The reducer, case by case *)

Lemma reducer_undo_snoc (init : list T) (x now : T) (fut : list T) :
  reducer {| past := init ++ [x]; present := now; future := fut |} Undo_ =
  {| past := init; present := x; future := fut ++ [now] |}.
Proof.
  unfold reducer. cbn [past present future].
  rewrite slice_init, get_last. reflexivity.
Qed.

Lemma reducer_redo_snoc (old : list T) (now : T) (init : list T) (x : T) :
  reducer {| past := old; present := now; future := init ++ [x] |} Redo_ =
  {| past := JsArray.slice old size None ++ [now]; present := x; future := init |}.
Proof.
  unfold reducer. cbn [past present future].
  rewrite slice_init, get_last. reflexivity.
Qed.

Lemma snoc_cases (arr : list T) :
  arr <> [] -> exists init x, arr = init ++ [x].
Proof.
  intro H. destruct (exists_last H) as (init & x & E). eauto.
Qed.

(** Every action keeps [past] within [size + 1] entries once it is there. *)
Lemma reducer_past_le (state : IState) (action : Action) :
  0 < size ->
  JsArray.len (past state) <= size + 1 ->
  JsArray.len (past (reducer state action)) <= size + 1.
Proof.
  intros Hsize Hle. pose proof (len_nonneg (past state)) as Hn.
  destruct action; cbn [reducer past].
  - rewrite len_app, len_slice_last by assumption.
    change (JsArray.len [present state]) with 1. lia.
  - assumption.
  - destruct (past state) as [|y l] eqn:E; [change (0 <= size + 1); lia|].
    assert (Hne : y :: l <> []) by discriminate.
    destruct (snoc_cases _ Hne) as (init & x & Hx). rewrite Hx in *.
    rewrite slice_init. rewrite len_app in Hle.
    pose proof (len_nonneg [x]). change (JsArray.len [x]) with 1 in *. lia.
  - rewrite len_app, len_slice_from by lia.
    change (JsArray.len [present state]) with 1. lia.
  - change (0 <= size + 1). lia.
Qed.

(** ** Renders *)

Lemma mount_rendered : mount = rendered initState.
Proof. reflexivity. Qed.

Lemma render_after_dispatch (state : IState) (action : Action) :
  useHistoryState (Some (dispatch (fst (rendered state)) action)) =
  rendered (reducer state action).
Proof.
  unfold useHistoryState, rendered, dispatch, React.useReducer,
    React.useCallback, React.no_deps.
  cbn [fst snd option_map reducer_cell setState_cell undo_cell redo_cell
       reset_cell].
  set (state' := reducer state action).
  destruct (JsArray.truthy_length (past state));
    destruct (JsArray.truthy_length (past state'));
    destruct (JsArray.truthy_length (future state));
    destruct (JsArray.truthy_length (future state'));
    reflexivity.
Qed.

Lemma step_rendered (state : IState) (c : Command) :
  step (rendered state) c =
  match call (rendered state) c with
  | Dispatch action => (rendered (reducer state action), None)
  | Throw e => (rendered state, Some e)
  end.
Proof.
  unfold step. destruct (call (rendered state) c); [|reflexivity].
  rewrite render_after_dispatch. reflexivity.
Qed.

Lemma reachable_rendered (s : Store) :
  reachable s -> s = rendered (state_of s).
Proof.
  induction 1 as [|s c _ IH].
  - reflexivity.
  - pose proof (step_rendered (state_of s) c) as Hstep.
    rewrite <- IH in Hstep. rewrite Hstep.
    destruct (call s c); cbn [fst]; [reflexivity | exact IH].
Qed.

(** What the callbacks of a rendered store do. *)
Lemma call_set (state : IState) (payload : Arg) (notUndoAble : option bool) :
  call (rendered state) (CallSet payload notUndoAble) =
  setState_body initState payload notUndoAble.
Proof. reflexivity. Qed.

Lemma call_undo (state : IState) :
  call (rendered state) CallUndo =
  undo_body (JsArray.truthy_length (past state)) tt.
Proof. reflexivity. Qed.

Lemma call_redo (state : IState) :
  call (rendered state) CallRedo =
  redo_body (JsArray.truthy_length (future state)) tt.
Proof. reflexivity. Qed.

Lemma call_reset (state : IState) :
  call (rendered state) CallReset = Dispatch Reset_.
Proof. reflexivity. Qed.

Lemma call_reachable (s : Store) (c : Command) :
  reachable s -> call s c = call (rendered (state_of s)) c.
Proof.
  intro Hs. f_equal. apply reachable_rendered. exact Hs.
Qed.

Lemma step_reachable (s : Store) (c : Command) :
  reachable s ->
  step s c =
  match call (rendered (state_of s)) c with
  | Dispatch action => (rendered (reducer (state_of s) action), None)
  | Throw e => (s, Some e)
  end.
Proof.
  intro Hs. pose proof (step_rendered (state_of s) c) as Hstep.
  rewrite <- (reachable_rendered s Hs) in Hstep.
  rewrite Hstep, (call_reachable s c Hs). reflexivity.
Qed.

Lemma reachable_past_le (s : Store) :
  0 < size -> reachable s -> JsArray.len (past (state_of s)) <= size + 1.
Proof.
  intros Hsize. induction 1 as [|s c Hs IH].
  - change (0 <= size + 1). lia.
  - rewrite (reachable_rendered s Hs), step_rendered.
    destruct (call (rendered (state_of s)) c).
    + apply reducer_past_le; assumption.
    + exact IH.
Qed.

Lemma reachable_run (s : Store) (cs : list Command) :
  reachable s -> reachable (run s cs).
Proof.
  revert s. induction cs as [|c cs IH]; intros s Hs; [exact Hs|].
  apply IH. constructor. exact Hs.
Qed.

(** ** Undoable sets in a row *)

Lemma run_cons (s : Store) (c : Command) (cs : list Command) :
  run s (c :: cs) = run (fst (step s c)) cs.
Proof. reflexivity. Qed.

Lemma run_sets_len (vs : list T) (state : IState) :
  0 < size ->
  JsArray.len (past state) <= size + 1 ->
  JsArray.len (past (state_of
    (run (rendered state) (map (fun v => CallSet (Value v) None) vs)))) =
  Z.min (JsArray.len (past state) + JsArray.len vs) (size + 1).
Proof.
  intros Hsize. revert state.
  induction vs as [|v vs IH]; intros state Hle.
  - pose proof (len_nonneg (past state)).
    change (JsArray.len (past state) =
            Z.min (JsArray.len (past state) + 0) (size + 1)). lia.
  - cbn [map]. rewrite run_cons, step_rendered, call_set.
    cbn [setState_body fst].
    pose proof (len_nonneg (past state)) as Hn.
    pose proof (len_nonneg vs) as Hv.
    assert (Hnew : JsArray.len (past (reducer state (Set_ v))) =
                   Z.min (JsArray.len (past state)) size + 1).
    { cbn [reducer past]. rewrite len_app, len_slice_last by assumption.
      reflexivity. }
    rewrite IH by (rewrite Hnew; lia). rewrite Hnew.
    change (v :: vs) with ([v] ++ vs). rewrite (len_app [v] vs).
    change (JsArray.len [v]) with 1. lia.
Qed.

(** ** The claims *)

(** C1, amended: on a store constructed with a capacity [size >= 1], the
    length of [past] never exceeds [size + 1], whatever sequence of
    commands has run; and after [k] undoable [set] calls on a fresh store
    it is exactly [min k (size + 1)]. *)
Theorem past_length_along_run (cs : list Command) (vs : list T) :
  0 < size ->
  JsArray.len (past (state_of (run mount cs))) <= size + 1 /\
  JsArray.len (past (state_of
    (run mount (map (fun v => CallSet (Value v) None) vs)))) =
  Z.min (JsArray.len vs) (size + 1).
Proof.
  intro Hsize. split.
  - apply reachable_past_le; [assumption|].
    apply reachable_run. constructor.
  - rewrite mount_rendered, run_sets_len; [reflexivity | assumption |].
    change (0 <= size + 1). lia.
Qed.

(** C3: for a capacity [size >= 1], the [SET] action makes the new [past]
    the last [size] elements of the old [past] followed by the old
    [present], makes the payload the new [present], and leaves [future] as
    it was; [setState] called with a literal value, [notUndoAble] omitted
    or false, dispatches exactly that action. *)
Theorem set_undoable (state : IState) (v : T) :
  0 < size ->
  reducer state (Set_ v) =
    {| past := takeLast (Z.to_nat size) (past state) ++ [present state];
       present := v;
       future := future state |} /\
  (forall s notUndoAble,
      reachable s ->
      notUndoAble = None \/ notUndoAble = Some false ->
      snd (step s (CallSet (Value v) notUndoAble)) = None /\
      state_of (fst (step s (CallSet (Value v) notUndoAble))) =
        reducer (state_of s) (Set_ v)).
Proof.
  intro Hsize. split.
  - cbn [reducer]. rewrite slice_last by assumption. reflexivity.
  - intros s nu Hs Hnu. rewrite (step_reachable s _ Hs), call_set.
    destruct Hnu as [-> | ->]; split; reflexivity.
Qed.

(** C4: with a non-empty [past], the [UNDO] action makes the last element
    of [past] the new [present], appends the old [present] to [future], and
    keeps all but the last element of [past]. *)
Theorem undo_effect (state : IState) :
  past state <> [] ->
  exists init x,
    past state = init ++ [x] /\
    reducer state Undo_ =
      {| past := init; present := x; future := future state ++ [present state] |}.
Proof.
  intro Hne. destruct (snoc_cases _ Hne) as (init & x & E).
  exists init, x. split; [exact E|].
  destruct state as [p now fut]. cbn [past present future] in *. subst p.
  apply reducer_undo_snoc.
Qed.

(** C5: on a store reached through the hook, [undo] throws exactly when
    [past] is empty and [redo] throws exactly when [future] is empty;
    whenever a call throws, the store is the one before the call. *)
Theorem undo_redo_guard (s : Store) :
  reachable s ->
  (snd (step s CallUndo) = Some (Error "Undo not allowed") <->
     past (state_of s) = []) /\
  (snd (step s CallUndo) = None <-> past (state_of s) <> []) /\
  (snd (step s CallRedo) = Some (Error "Redo not allowed") <->
     future (state_of s) = []) /\
  (snd (step s CallRedo) = None <-> future (state_of s) <> []) /\
  (forall c e, snd (step s c) = Some e -> fst (step s c) = s).
Proof.
  intro Hs. pose proof (reachable_rendered s Hs) as E.
  pose proof (step_rendered (state_of s) CallUndo) as HU.
  pose proof (step_rendered (state_of s) CallRedo) as HR.
  rewrite call_undo in HU. rewrite call_redo in HR. rewrite <- E in HU, HR.
  rewrite HU, HR. clear HU HR.
  pose proof (truthy_length_false (past (state_of s))) as Pf.
  pose proof (truthy_length_true (past (state_of s))) as Pt.
  pose proof (truthy_length_false (future (state_of s))) as Ff.
  pose proof (truthy_length_true (future (state_of s))) as Ft.
  unfold undo_body, redo_body.
  repeat split;
    try (destruct (JsArray.truthy_length (past (state_of s)));
         cbn [snd]; intuition congruence);
    try (destruct (JsArray.truthy_length (future (state_of s)));
         cbn [snd]; intuition congruence).
  intros c e. unfold step. destruct (call s c); cbn [fst snd];
    [discriminate | reflexivity].
Qed.

(** C6: on a store reached through the hook and with a non-empty [past],
    [undo] and then [redo] both go through and leave [present] as it was
    before the [undo]. *)
Theorem undo_then_redo (s : Store) :
  reachable s ->
  past (state_of s) <> [] ->
  snd (step s CallUndo) = None /\
  snd (step (fst (step s CallUndo)) CallRedo) = None /\
  present (state_of (fst (step (fst (step s CallUndo)) CallRedo))) =
    present (state_of s).
Proof.
  intros Hs Hne. rewrite (reachable_rendered s Hs).
  generalize (state_of s) Hne. clear s Hs Hne. intros state Hne.
  destruct (snoc_cases _ Hne) as (init & x & E).
  destruct state as [p now fut]. cbn [past] in E. subst p.
  assert (HU : step (rendered (mkState (init ++ [x]) now fut)) CallUndo =
               (rendered (mkState init x (fut ++ [now])), None)).
  { rewrite step_rendered, call_undo. cbn [past].
    replace (JsArray.truthy_length (init ++ [x])) with true.
    - cbn [undo_body]. rewrite reducer_undo_snoc. reflexivity.
    - symmetry. apply truthy_length_true. destruct init; discriminate. }
  rewrite HU. cbn [fst snd].
  assert (HR : step (rendered (mkState init x (fut ++ [now]))) CallRedo =
               (rendered (mkState (JsArray.slice init size None ++ [x]) now fut),
                None)).
  { rewrite step_rendered, call_redo. cbn [future].
    replace (JsArray.truthy_length (fut ++ [now])) with true.
    - cbn [redo_body]. rewrite reducer_redo_snoc. reflexivity.
    - symmetry. apply truthy_length_true. destruct fut; discriminate. }
  rewrite HR. cbn [fst snd]. repeat split.
Qed.

(** C7: [reset] never throws and takes every store reached through the hook
    back to the store as mounted, whose state has the hook's [value]
    argument as [present] and empty [past] and [future]; the [RESET] action
    gives that state from any state. *)
Theorem reset_baseline (s : Store) :
  reachable s ->
  step s CallReset = (mount, None) /\
  state_of mount = {| past := []; present := value; future := [] |} /\
  (forall state, reducer state Reset_ =
                   {| past := []; present := value; future := [] |}).
Proof.
  intro Hs. repeat split.
  rewrite (reachable_rendered s Hs), step_rendered, call_reset.
  reflexivity.
Qed.

(** C8: the [SET_NOT_UNDOABLE] action changes [present] only: [past] and
    [future] are the sequences they were; [setState] called with
    [notUndoAble] true never throws and leaves [past] and [future] of the
    store as they were, whatever the payload. *)
Theorem set_not_undoable_frame
    (state : IState) (v : T) (s : Store) (payload : Arg) :
  reachable s ->
  past (reducer state (SetNotUndoable v)) = past state /\
  future (reducer state (SetNotUndoable v)) = future state /\
  present (reducer state (SetNotUndoable v)) = v /\
  snd (step s (CallSet payload (Some true))) = None /\
  past (state_of (fst (step s (CallSet payload (Some true))))) =
    past (state_of s) /\
  future (state_of (fst (step s (CallSet payload (Some true))))) =
    future (state_of s).
Proof.
  intro Hs. do 3 (split; [reflexivity|]).
  rewrite (step_reachable s _ Hs), call_set.
  destruct payload; repeat split.
Qed.

(** The callback behind [setState] is the one created at mount: a function
    payload is applied to the hook's [value] argument, whatever [present]
    is when the call is made. *)
Lemma set_updater_reads_mount_value (s : Store) (f : T -> T) :
  reachable s ->
  call s (CallSet (Func f) None) = Dispatch (Set_ (f value)).
Proof.
  intro Hs. rewrite (reachable_rendered s Hs). reflexivity.
Qed.

(** C10: for a capacity [size >= 1], [past] has at most [size + 1] entries
    in the initial state, every action of the reducer keeps it so, and so
    it is in every store reached through the hook. *)
Theorem past_bound_invariant :
  0 < size ->
  JsArray.len (past initState) <= size + 1 /\
  (forall state action,
      JsArray.len (past state) <= size + 1 ->
      JsArray.len (past (reducer state action)) <= size + 1) /\
  (forall s, reachable s -> JsArray.len (past (state_of s)) <= size + 1).
Proof.
  intro Hsize. split; [|split].
  - change (0 <= size + 1). lia.
  - intros state action. apply reducer_past_le. assumption.
  - intros s. apply reachable_past_le. assumption.
Qed.

(** ** Beyond the claims: the returned tuple and the callbacks *)

(** A store reached through the hook is the store rendered from its state:
    replace it by [rendered state] for a state variable. *)
Ltac as_rendered s Hs state :=
  let E := fresh "E" in
  let Est := fresh "Est" in
  pose proof (reachable_rendered s Hs) as E;
  remember (state_of s) as state eqn:Est in *;
  clear Est Hs; subst s.

Lemma step_undo_snoc (init : list T) (x now : T) (fut : list T) :
  step (rendered (mkState (init ++ [x]) now fut)) CallUndo =
  (rendered (mkState init x (fut ++ [now])), None).
Proof.
  rewrite step_rendered, call_undo. cbn [past].
  replace (JsArray.truthy_length (init ++ [x])) with true.
  - cbn [undo_body]. rewrite reducer_undo_snoc. reflexivity.
  - symmetry. apply truthy_length_true. destruct init; discriminate.
Qed.

Lemma step_redo_snoc (old : list T) (now : T) (init : list T) (x : T) :
  step (rendered (mkState old now (init ++ [x]))) CallRedo =
  (rendered (mkState (JsArray.slice old size None ++ [now]) x init), None).
Proof.
  rewrite step_rendered, call_redo. cbn [future].
  replace (JsArray.truthy_length (init ++ [x])) with true.
  - cbn [redo_body]. rewrite reducer_redo_snoc. reflexivity.
  - symmetry. apply truthy_length_true. destruct init; discriminate.
Qed.

Lemma step_set_value (state : IState) (v : T) :
  step (rendered state) (CallSet (Value v) None) =
  (rendered (reducer state (Set_ v)), None).
Proof. rewrite step_rendered, call_set. reflexivity. Qed.

Lemma run_app (s : Store) (cs1 cs2 : list Command) :
  run s (cs1 ++ cs2) = run (run s cs1) cs2.
Proof. apply fold_left_app. Qed.

Lemma run_rendered (state : IState) (cs : list Command) :
  run (rendered state) cs = rendered (state_of (run (rendered state) cs)).
Proof.
  revert state. induction cs as [|c cs IH]; intro state; [reflexivity|].
  rewrite run_cons, step_rendered.
  destruct (call (rendered state) c); cbn [fst]; apply IH.
Qed.

(** X1: on every store reached through the hook, the first component of
    the returned tuple is [state.present], [canUndo] says that [past] is not
    empty and [canRedo] that [future] is not empty; [undo] goes through
    exactly when [canUndo] is true, and [redo] exactly when [canRedo] is. *)
Theorem returned_flags (s : Store) :
  reachable s ->
  returned_present s = present (state_of s) /\
  (canUndo (handlers_of s) = true <-> past (state_of s) <> []) /\
  (canRedo (handlers_of s) = true <-> future (state_of s) <> []) /\
  (canUndo (handlers_of s) = true <-> snd (step s CallUndo) = None) /\
  (canRedo (handlers_of s) = true <-> snd (step s CallRedo) = None).
Proof.
  intro Hs. as_rendered s Hs state.
  rewrite !step_rendered, call_undo, call_redo.
  unfold returned_present, handlers_of, rendered, state_of.
  cbn [fst snd canUndo canRedo reducer_cell].
  pose proof (truthy_length_true (past state)) as Pt.
  pose proof (truthy_length_true (future state)) as Ft.
  split; [reflexivity|]. split; [exact Pt|]. split; [exact Ft|].
  unfold undo_body, redo_body. split.
  - destruct (JsArray.truthy_length (past state)); cbn [snd];
      split; congruence.
  - destruct (JsArray.truthy_length (future state)); cbn [snd];
      split; congruence.
Qed.


(** X3: [setState] never throws, and a function payload is applied to the
    hook's [value] argument: on every store reached through the hook,
    [setState(f, n)] does what [setState(f(value), n)] does. *)
Theorem set_function_payload
    (s : Store) (f : T -> T) (notUndoAble : option bool) (payload : Arg) :
  reachable s ->
  snd (step s (CallSet payload notUndoAble)) = None /\
  step s (CallSet (Func f) notUndoAble) =
    step s (CallSet (Value (f value)) notUndoAble) /\
  present (state_of (fst (step s (CallSet (Func f) notUndoAble)))) = f value.
Proof.
  intro Hs. rewrite !(step_reachable s _ Hs), !call_set.
  split; [reflexivity|]. split; [reflexivity|].
  destruct notUndoAble as [[|]|]; reflexivity.
Qed.

(** ** Beyond the claims: how the commands compose *)

Lemma takeLast_all (n : nat) (arr : list T) :
  (length arr <= n)%nat -> takeLast n arr = arr.
Proof.
  intro H. unfold takeLast. replace (length arr - n)%nat with 0%nat by lia.
  reflexivity.
Qed.

Lemma slice_nil (k : Z) : JsArray.slice (@nil T) k None = [].
Proof.
  unfold JsArray.slice. rewrite skipn_nil. apply firstn_nil.
Qed.

Lemma thrown_cons (s : Store) (c : Command) (cs : list Command) :
  snd (step s c) = None -> thrown s (c :: cs) = thrown (fst (step s c)) cs.
Proof. intro H. cbn [thrown]. rewrite H. reflexivity. Qed.

Lemma thrown_app (s : Store) (cs1 cs2 : list Command) :
  thrown s (cs1 ++ cs2) = thrown s cs1 ++ thrown (run s cs1) cs2.
Proof.
  revert s. induction cs1 as [|c cs1 IH]; intro s; [reflexivity|].
  cbn [app thrown]. rewrite run_cons.
  destruct (snd (step s c)); rewrite IH; reflexivity.
Qed.

(** X4: for a capacity [size >= 1], an undoable [set(v)] followed by [undo]
    never throws; it brings [present] back, puts [v] at the end of
    [future], and leaves in [past] its last [size] entries, so all of it
    when it had at most [size]. *)
Theorem set_then_undo (s : Store) (v : T) :
  reachable s ->
  0 < size ->
  thrown s [CallSet (Value v) None; CallUndo] = [] /\
  state_of (run s [CallSet (Value v) None; CallUndo]) =
    {| past := takeLast (Z.to_nat size) (past (state_of s));
       present := present (state_of s);
       future := future (state_of s) ++ [v] |} /\
  (JsArray.len (past (state_of s)) <= size ->
   past (state_of (run s [CallSet (Value v) None; CallUndo])) =
     past (state_of s)).
Proof.
  intros Hs Hsize. as_rendered s Hs state.
  destruct state as [p now fut].
  assert (Hset : step (rendered (mkState p now fut)) (CallSet (Value v) None) =
                 (rendered (mkState (takeLast (Z.to_nat size) p ++ [now]) v fut),
                  None)).
  { rewrite step_set_value. cbn [reducer past present future].
    rewrite slice_last by assumption. reflexivity. }
  rewrite thrown_cons by (rewrite Hset; reflexivity).
  rewrite thrown_cons by (rewrite Hset; cbn [fst]; rewrite step_undo_snoc;
                          reflexivity).
  rewrite !run_cons, Hset. cbn [fst]. rewrite step_undo_snoc.
  cbn [fst run fold_left state_of rendered reducer_cell past present future].
  split; [reflexivity|]. split; [reflexivity|].
  intro Hle. apply takeLast_all. unfold JsArray.len in Hle. lia.
Qed.

(** X5: with a non-empty [future], [redo] followed by [undo] never throws
    and brings [present] and [future] back. *)
Theorem redo_then_undo (s : Store) :
  reachable s ->
  future (state_of s) <> [] ->
  thrown s [CallRedo; CallUndo] = [] /\
  present (state_of (run s [CallRedo; CallUndo])) = present (state_of s) /\
  future (state_of (run s [CallRedo; CallUndo])) = future (state_of s).
Proof.
  intros Hs Hne. as_rendered s Hs state.
  destruct state as [p now fut]. cbn [state_of rendered fst reducer_cell] in Hne.
  cbn [future] in Hne.
  destruct (snoc_cases _ Hne) as (init & x & ->).
  rewrite thrown_cons by (rewrite step_redo_snoc; reflexivity).
  rewrite thrown_cons by (rewrite step_redo_snoc; cbn [fst];
                          rewrite step_undo_snoc; reflexivity).
  rewrite !run_cons, step_redo_snoc. cbn [fst]. rewrite step_undo_snoc.
  repeat split.
Qed.

(** X6: for a capacity [size >= 1], a [redo] leaves at most two entries in
    [past]; when [past] had at most [size] entries, it leaves the old
    [present] alone in it. *)
Theorem redo_past (s : Store) :
  reachable s ->
  0 < size ->
  future (state_of s) <> [] ->
  JsArray.len (past (state_of (fst (step s CallRedo)))) <= 2 /\
  (JsArray.len (past (state_of s)) <= size ->
   past (state_of (fst (step s CallRedo))) = [present (state_of s)]).
Proof.
  intros Hs Hsize Hne.
  pose proof (reachable_past_le s Hsize Hs) as Hle.
  as_rendered s Hs state.
  destruct state as [p now fut].
  cbn [state_of rendered fst reducer_cell past present future] in *.
  destruct (snoc_cases _ Hne) as (init & x & ->).
  rewrite step_redo_snoc.
  cbn [state_of rendered fst reducer_cell past present future].
  pose proof (len_nonneg p) as Hn. split.
  - rewrite len_app, len_slice_from by lia.
    change (JsArray.len [now]) with 1. lia.
  - intro Hp. rewrite slice_from by lia.
    rewrite skipn_all2 by (unfold JsArray.len in Hp; lia). reflexivity.
Qed.

Lemma set_undo_rounds (vs : list T) (fut : list T) :
  thrown (rendered (mkState [] value fut))
    (flat_map (fun v => [CallSet (Value v) None; CallUndo]) vs) = [] /\
  state_of (run (rendered (mkState [] value fut))
    (flat_map (fun v => [CallSet (Value v) None; CallUndo]) vs)) =
  mkState [] value (fut ++ vs).
Proof.
  revert fut. induction vs as [|v vs IH]; intro fut.
  - cbn [flat_map thrown run fold_left]. rewrite app_nil_r. split; reflexivity.
  - cbn [flat_map app].
    assert (Hset : step (rendered (mkState [] value fut))
                     (CallSet (Value v) None) =
                   (rendered (mkState ([] ++ [value]) v fut), None)).
    { rewrite step_set_value. cbn [reducer past present future].
      rewrite slice_nil. reflexivity. }
    rewrite thrown_cons by (rewrite Hset; reflexivity).
    rewrite thrown_cons by (rewrite Hset; cbn [fst]; rewrite step_undo_snoc;
                            reflexivity).
    rewrite !run_cons, Hset. cbn [fst]. rewrite step_undo_snoc. cbn [fst].
    destruct (IH (fut ++ [v])) as [IHt IHs]. rewrite IHt, IHs.
    rewrite <- app_assoc. split; reflexivity.
Qed.

(** X7: [future] is not bounded by [size]: on a fresh store, whatever
    [size] is, the rounds [set(v); undo()] for [v] in [vs] never throw and
    end with [future = vs], [present] the hook's [value] and an empty
    [past]. *)
Theorem future_grows_unbounded (vs : list T) :
  thrown mount (flat_map (fun v => [CallSet (Value v) None; CallUndo]) vs) = [] /\
  state_of (run mount
    (flat_map (fun v => [CallSet (Value v) None; CallUndo]) vs)) =
  {| past := []; present := value; future := vs |}.
Proof.
  rewrite mount_rendered. exact (set_undo_rounds vs []).
Qed.

(** X8: an undoable [set] does not clear [future]: with a non-empty [past],
    [undo(); set(v); redo()] never throws and ends with the [present] and
    the [future] from before the [undo]; [v] is the last entry of [past]. *)
Theorem set_keeps_redo (s : Store) (v : T) :
  reachable s ->
  past (state_of s) <> [] ->
  thrown s [CallUndo; CallSet (Value v) None; CallRedo] = [] /\
  present (state_of (run s [CallUndo; CallSet (Value v) None; CallRedo])) =
    present (state_of s) /\
  future (state_of (run s [CallUndo; CallSet (Value v) None; CallRedo])) =
    future (state_of s) /\
  exists l,
    past (state_of (run s [CallUndo; CallSet (Value v) None; CallRedo])) =
      l ++ [v].
Proof.
  intros Hs Hne. as_rendered s Hs state.
  destruct state as [p now fut].
  cbn [state_of rendered fst reducer_cell past present future] in *.
  destruct (snoc_cases _ Hne) as (init & x & ->).
  assert (H1 := step_undo_snoc init x now fut).
  assert (H2 := step_set_value (mkState init x (fut ++ [now])) v).
  cbn [reducer past present future] in H2.
  assert (H3 := step_redo_snoc
                  (JsArray.slice init (- size) None ++ [x]) v fut now).
  rewrite thrown_cons by (rewrite H1; reflexivity).
  rewrite H1 at 1. cbn [fst].
  rewrite thrown_cons by (rewrite H2; reflexivity).
  rewrite H2 at 1. cbn [fst].
  rewrite thrown_cons by (rewrite H3; reflexivity).
  rewrite !run_cons, H1. cbn [fst]. rewrite H2. cbn [fst]. rewrite H3.
  cbn [fst run fold_left state_of rendered reducer_cell past present future
       thrown].
  repeat split. eexists. reflexivity.
Qed.

(** ** Beyond the claims: several steps back and forth *)

Lemma thrown_sets (state : IState) (vs : list T) :
  thrown (rendered state) (map (fun v => CallSet (Value v) None) vs) = [].
Proof.
  revert state. induction vs as [|v vs IH]; intro state; [reflexivity|].
  cbn [map]. rewrite thrown_cons by (rewrite step_set_value; reflexivity).
  rewrite step_set_value. apply IH.
Qed.

Lemma undos_then_redos_rendered (n : nat) :
  forall (p : list T) (now : T) (fut : list T),
    (n <= length p)%nat ->
    thrown (rendered (mkState p now fut))
      (repeat CallUndo n ++ repeat CallRedo n) = [] /\
    present (state_of (run (rendered (mkState p now fut))
      (repeat CallUndo n ++ repeat CallRedo n))) = now /\
    future (state_of (run (rendered (mkState p now fut))
      (repeat CallUndo n ++ repeat CallRedo n))) = fut.
Proof.
  induction n as [|n IH]; intros p now fut Hn.
  - repeat split.
  - assert (Hne : p <> []) by (destruct p; [cbn in Hn; lia | discriminate]).
    destruct (snoc_cases _ Hne) as (init & x & ->).
    rewrite length_app in Hn. cbn [length] in Hn.
    change (repeat CallRedo (S n)) with (CallRedo :: repeat CallRedo n).
    rewrite repeat_cons, app_assoc. cbn [repeat app].
    rewrite thrown_cons by (rewrite step_undo_snoc; reflexivity).
    rewrite run_cons, step_undo_snoc. cbn [fst].
    destruct (IH init x (fut ++ [now])) as (It & Ip & If); [lia|].
    set (mid := repeat CallUndo n ++ repeat CallRedo n) in *.
    rewrite thrown_app, run_app, It, run_rendered.
    remember (state_of (run (rendered (mkState init x (fut ++ [now]))) mid))
      as st2 eqn:Est2 in *.
    clear Est2. destruct st2 as [p2 now2 fut2].
    cbn [present future] in Ip, If. subst now2 fut2. cbn [app].
    rewrite thrown_cons by (rewrite step_redo_snoc; reflexivity).
    rewrite run_cons, step_redo_snoc. repeat split.
Qed.

(** X9: [n] calls of [undo] followed by [n] calls of [redo], on a store
    whose [past] has at least [n] entries, never throw and bring [present]
    and [future] back. *)
Theorem undos_then_redos (s : Store) (n : nat) :
  reachable s ->
  (n <= length (past (state_of s)))%nat ->
  thrown s (repeat CallUndo n ++ repeat CallRedo n) = [] /\
  present (state_of (run s (repeat CallUndo n ++ repeat CallRedo n))) =
    present (state_of s) /\
  future (state_of (run s (repeat CallUndo n ++ repeat CallRedo n))) =
    future (state_of s).
Proof.
  intros Hs Hn. as_rendered s Hs state. destruct state as [p now fut].
  apply undos_then_redos_rendered. exact Hn.
Qed.

Lemma takeLast_app_suffix (n : nat) (l suf : list T) :
  (length suf <= n)%nat ->
  takeLast n (l ++ suf) = takeLast (n - length suf) l ++ suf.
Proof.
  intro H. unfold takeLast. rewrite length_app, skipn_app.
  replace (length l + length suf - n - length l)%nat with 0%nat by lia.
  replace (length l + length suf - n)%nat
    with (length l - (n - length suf))%nat by lia.
  reflexivity.
Qed.

Lemma takeLast_takeLast (m n : nat) (l : list T) :
  (m <= n)%nat -> takeLast m (takeLast n l) = takeLast m l.
Proof.
  intro H. unfold takeLast. rewrite length_skipn, skipn_skipn.
  f_equal. lia.
Qed.

(** The state after undoable sets of [ws] and then [w]: the old [present]
    and [ws] are the last entries of [past] as long as they fit. *)
Lemma sets_suffix (p : list T) (now : T) (fut : list T) (w : T) :
  0 < size ->
  forall ws : list T,
    JsArray.len ws <= size ->
    exists l,
      state_of (run (rendered (mkState p now fut))
        (map (fun v => CallSet (Value v) None) (ws ++ [w]))) =
      mkState (l ++ now :: ws) w fut.
Proof.
  intro Hsize. revert w.
  intros w ws. revert w. induction ws as [|w' ws IH] using rev_ind; intros w Hlen.
  - cbn [app map]. rewrite run_cons, step_set_value.
    cbn [fst run fold_left state_of rendered reducer_cell reducer past present
         future].
    eexists. reflexivity.
  - rewrite len_app in Hlen. change (JsArray.len [w']) with 1 in Hlen.
    pose proof (len_nonneg ws) as Hws.
    destruct (IH w') as (l & E); [lia|].
    rewrite map_app, run_app, run_rendered, E.
    cbn [map]. rewrite run_cons, step_set_value.
    cbn [fst run fold_left state_of rendered reducer_cell reducer past present
         future].
    rewrite slice_last by assumption.
    change (l ++ now :: ws) with (l ++ (now :: ws)).
    rewrite takeLast_app_suffix
      by (cbn [length]; unfold JsArray.len in Hlen; lia).
    eexists. rewrite <- app_assoc. cbn [app]. reflexivity.
Qed.

Lemma undos_cons (l : list T) (a : T) :
  forall (ws : list T) (now : T) (fut : list T),
    thrown (rendered (mkState (l ++ a :: ws) now fut))
      (repeat CallUndo (S (length ws))) = [] /\
    state_of (run (rendered (mkState (l ++ a :: ws) now fut))
      (repeat CallUndo (S (length ws)))) =
    mkState l a (fut ++ now :: rev ws).
Proof.
  intro ws. induction ws as [|w ws IH] using rev_ind; intros now fut.
  - cbn [length repeat rev].
    rewrite thrown_cons by (rewrite step_undo_snoc; reflexivity).
    rewrite run_cons, step_undo_snoc. split; reflexivity.
  - rewrite length_app. cbn [length].
    replace (S (length ws + 1)) with (S (S (length ws))) by lia.
    change (repeat CallUndo (S (S (length ws))))
      with (CallUndo :: repeat CallUndo (S (length ws))).
    replace (l ++ a :: ws ++ [w]) with ((l ++ a :: ws) ++ [w])
      by (rewrite <- app_assoc; reflexivity).
    rewrite thrown_cons by (rewrite step_undo_snoc; reflexivity).
    rewrite run_cons, step_undo_snoc. cbn [fst].
    destruct (IH w (fut ++ [now])) as (It & Is). rewrite It, Is.
    rewrite rev_unit, <- app_assoc. split; reflexivity.
Qed.

(** X10: for a capacity [size >= 1], up to [size + 1] undoable sets in a
    row can all be undone: the sets of [vs] followed by as many calls of
    [undo] never throw and end with the [present] from before the sets and
    with [vs], latest first, appended to [future]. *)
Theorem sets_then_undos (s : Store) (vs : list T) :
  reachable s ->
  0 < size ->
  JsArray.len vs <= size + 1 ->
  thrown s (map (fun v => CallSet (Value v) None) vs ++
            repeat CallUndo (length vs)) = [] /\
  present (state_of (run s (map (fun v => CallSet (Value v) None) vs ++
                            repeat CallUndo (length vs)))) =
    present (state_of s) /\
  future (state_of (run s (map (fun v => CallSet (Value v) None) vs ++
                           repeat CallUndo (length vs)))) =
    future (state_of s) ++ rev vs.
Proof.
  intros Hs Hsize Hlen. as_rendered s Hs state. destruct state as [p now fut].
  cbn [state_of rendered fst reducer_cell present future].
  induction vs as [|w ws _] using rev_ind.
  - cbn [map length repeat app thrown run fold_left rev state_of rendered fst
         reducer_cell present future].
    rewrite app_nil_r. repeat split.
  - rewrite len_app in Hlen. change (JsArray.len [w]) with 1 in Hlen.
    destruct (sets_suffix p now fut w Hsize ws) as (l & E); [lia|].
    rewrite thrown_app, run_app, thrown_sets, run_rendered, E.
    rewrite length_app. cbn [length].
    replace (length ws + 1)%nat with (S (length ws)) by lia.
    destruct (undos_cons l now ws w fut) as (Ut & Us).
    rewrite Ut, Us, rev_unit. repeat split.
Qed.

Lemma step_undo_empty (now : T) (fut : list T) :
  step (rendered (mkState [] now fut)) CallUndo =
  (rendered (mkState [] now fut), Some (Error "Undo not allowed")).
Proof. rewrite step_rendered, call_undo. reflexivity. Qed.

(** X14: for a capacity [size >= 1], no more than [size + 1] calls of
    [undo] in a row go through: after [size + 1] or more undoable sets, the
    next [size + 1] calls of [undo] do not throw and the one after them
    throws [Undo not allowed]. *)
Theorem undo_depth_capped (s : Store) (vs : list T) :
  reachable s ->
  0 < size ->
  size + 1 <= JsArray.len vs ->
  thrown s (map (fun v => CallSet (Value v) None) vs ++
            repeat CallUndo (Z.to_nat size + 1)) = [] /\
  thrown s (map (fun v => CallSet (Value v) None) vs ++
            repeat CallUndo (Z.to_nat size + 2)) = [Error "Undo not allowed"].
Proof.
  intros Hs Hsize Hvs. pose proof (reachable_past_le s Hsize Hs) as Hle.
  as_rendered s Hs state.
  cbn [state_of rendered fst reducer_cell] in Hle.
  pose proof (run_sets_len vs state Hsize Hle) as Hlen.
  pose proof (len_nonneg (past state)) as Hp.
  rewrite Z.min_r in Hlen by lia.
  rewrite !thrown_app, thrown_sets, run_rendered. cbn [app].
  remember (state_of (run (rendered state)
              (map (fun v => CallSet (Value v) None) vs))) as st eqn:Est in *.
  clear Est. destruct st as [p' now' fut']. cbn [past] in Hlen.
  destruct p' as [|a ws]; [unfold JsArray.len in Hlen; cbn in Hlen; lia|].
  assert (Hws : (Z.to_nat size = length ws)%nat).
  { unfold JsArray.len in Hlen. cbn [length] in Hlen. lia. }
  destruct (undos_cons [] a ws now' fut') as (Ut & Us). cbn [app] in Ut, Us.
  replace (Z.to_nat size + 1)%nat with (S (length ws)) by lia.
  replace (Z.to_nat size + 2)%nat with (S (length ws) + 1)%nat by lia.
  split; [exact Ut|].
  rewrite repeat_app, thrown_app, Ut, run_rendered, Us. cbn [app repeat].
  cbn [thrown]. rewrite step_undo_empty. reflexivity.
Qed.

(** ** Beyond the claims: which values a store holds *)

Lemma sets_window_rendered (p : list T) (now : T) (fut : list T) :
  0 < size ->
  JsArray.len p <= size + 1 ->
  forall vs : list T,
    past (state_of (run (rendered (mkState p now fut))
            (map (fun v => CallSet (Value v) None) vs))) ++
    [present (state_of (run (rendered (mkState p now fut))
            (map (fun v => CallSet (Value v) None) vs)))] =
    takeLast (Z.to_nat size + 2) (p ++ now :: vs).
Proof.
  intros Hsize Hp vs. induction vs as [|w ws IH] using rev_ind.
  - cbn [map run fold_left state_of rendered fst reducer_cell past present].
    symmetry. apply takeLast_all. rewrite length_app. cbn [length].
    unfold JsArray.len in Hp. lia.
  - rewrite map_app, run_app, run_rendered.
    remember (state_of (run (rendered (mkState p now fut))
                (map (fun v => CallSet (Value v) None) ws)))
      as st eqn:Est in *.
    clear Est. destruct st as [p' now' fut']. cbn [past present] in IH.
    cbn [map]. rewrite run_cons, step_set_value.
    cbn [fst run fold_left state_of rendered reducer_cell reducer past present
         future].
    rewrite slice_last by assumption.
    replace (p ++ now :: ws ++ [w]) with ((p ++ now :: ws) ++ [w])
      by (rewrite <- app_assoc; reflexivity).
    rewrite (takeLast_app_suffix (Z.to_nat size + 2) _ [w])
      by (cbn [length]; lia).
    f_equal. cbn [length].
    rewrite <- (takeLast_takeLast (Z.to_nat size + 2 - 1) (Z.to_nat size + 2))
      by lia.
    rewrite <- IH.
    rewrite (takeLast_app_suffix (Z.to_nat size + 2 - 1) p' [now'])
      by (cbn [length]; lia).
    cbn [length]. f_equal. f_equal. lia.
Qed.

(** X11: for a capacity [size >= 1], a store remembers a window of the
    last [size + 2] values: after undoable sets of [vs] on a fresh store,
    [past] followed by [present] is the last [size + 2] elements of the
    hook's [value] followed by [vs]. *)
Theorem sets_window (vs : list T) :
  0 < size ->
  past (state_of (run mount (map (fun v => CallSet (Value v) None) vs))) ++
  [present (state_of (run mount (map (fun v => CallSet (Value v) None) vs)))] =
  takeLast (Z.to_nat size + 2) (value :: vs).
Proof.
  intro Hsize. rewrite mount_rendered.
  apply (sets_window_rendered [] value [] Hsize).
  change (0 <= size + 1). lia.
Qed.

Lemma sets_keep_all_rendered (vs : list T) :
  size = 0 ->
  forall (p : list T) (now : T) (fut : list T),
    past (state_of (run (rendered (mkState p now fut))
            (map (fun v => CallSet (Value v) None) vs))) ++
    [present (state_of (run (rendered (mkState p now fut))
            (map (fun v => CallSet (Value v) None) vs)))] =
    p ++ now :: vs.
Proof.
  intro Hsize. induction vs as [|v vs IH]; intros p now fut.
  - reflexivity.
  - cbn [map]. rewrite run_cons, step_set_value.
    cbn [fst reducer past present future].
    rewrite Hsize, slice_minus_zero, IH, <- app_assoc. reflexivity.
Qed.

(** X12: with [size = 0] nothing is ever dropped: after undoable sets of
    [vs] on a fresh store, [past] followed by [present] is the hook's
    [value] followed by all of [vs]. *)
Theorem sets_keep_all (vs : list T) :
  size = 0 ->
  past (state_of (run mount (map (fun v => CallSet (Value v) None) vs))) ++
  [present (state_of (run mount (map (fun v => CallSet (Value v) None) vs)))] =
  value :: vs.
Proof.
  intro Hsize. rewrite mount_rendered.
  apply (sets_keep_all_rendered vs Hsize [] value []).
Qed.

Lemma Forall_firstn (P : T -> Prop) (n : nat) (l : list T) :
  Forall P l -> Forall P (firstn n l).
Proof.
  intro H. revert n. induction H as [|x l Hx Hl IH]; intro n.
  - rewrite firstn_nil. constructor.
  - destruct n; cbn [firstn]; constructor; auto.
Qed.

Lemma Forall_skipn (P : T -> Prop) (n : nat) (l : list T) :
  Forall P l -> Forall P (skipn n l).
Proof.
  intro H. revert n. induction H as [|x l Hx Hl IH]; intro n.
  - rewrite skipn_nil. constructor.
  - destruct n; cbn [skipn]; [constructor; assumption | apply IH].
Qed.

Lemma Forall_slice (P : T -> Prop) (l : list T) (k : Z) (e : option Z) :
  Forall P l -> Forall P (JsArray.slice l k e).
Proof.
  intro H. unfold JsArray.slice. apply Forall_firstn, Forall_skipn, H.
Qed.

Lemma Forall_snoc (P : T -> Prop) (l : list T) (x : T) :
  Forall P (l ++ [x]) <-> Forall P l /\ P x.
Proof.
  rewrite Forall_app. split; intros [Hl Hx]; split; try assumption.
  - inversion Hx; assumption.
  - constructor; [assumption | constructor].
Qed.

Lemma step_within (P : T -> Prop) (state : IState) (c : Command) :
  P value ->
  command_within P c ->
  state_within P state ->
  state_within P (state_of (fst (step (rendered state) c))).
Proof.
  intros Hv Hc (Hp & Hn & Hf). destruct state as [p now fut].
  cbn [past present future] in Hp, Hn, Hf.
  destruct c as [payload nu| | |].
  - rewrite step_rendered, call_set.
    assert (Hnew : P match payload with
                     | Func f => f (present initState)
                     | Value v => v
                     end).
    { destruct payload as [v|f]; cbn [command_within payload_within] in Hc;
        [exact Hc | apply Hc; exact Hv]. }
    unfold setState_body.
    destruct (match nu with Some b => b | None => false end);
      cbn [fst state_of rendered reducer_cell reducer past present future];
      repeat split; cbn [past present future]; try assumption.
    apply Forall_snoc. split; [apply Forall_slice|]; assumption.
  - destruct p as [|y p'] eqn:Ep.
    + rewrite step_rendered, call_undo. cbn [past JsArray.truthy_length].
      cbn. repeat split; assumption.
    + assert (Hne : y :: p' <> []) by discriminate.
      destruct (snoc_cases _ Hne) as (init & x & E). rewrite E in *.
      rewrite step_undo_snoc. apply Forall_snoc in Hp. destruct Hp as [Hi Hx].
      cbn [fst state_of rendered reducer_cell].
      repeat split; cbn [past present future]; try assumption.
      apply Forall_snoc. split; assumption.
  - destruct fut as [|y fut'] eqn:Ef.
    + rewrite step_rendered, call_redo. cbn [future JsArray.truthy_length].
      cbn. repeat split; assumption.
    + assert (Hne : y :: fut' <> []) by discriminate.
      destruct (snoc_cases _ Hne) as (init & x & E). rewrite E in *.
      rewrite step_redo_snoc. apply Forall_snoc in Hf. destruct Hf as [Hi Hx].
      cbn [fst state_of rendered reducer_cell].
      repeat split; cbn [past present future]; try assumption.
      apply Forall_snoc. split; [apply Forall_slice|]; assumption.
  - rewrite step_rendered, call_reset.
    cbn [fst state_of rendered reducer_cell reducer initState].
    repeat split; cbn [past present future]; try assumption; constructor.
Qed.

(** X13: a store holds no value that was not put into it: when the hook's
    [value] and every literal payload lie in a set [P] of values and every
    function payload maps [P] into [P], then after any sequence of commands
    all of [past], [present] and all of [future] lie in [P]; in particular
    the [undefined] of an empty [past] or [future] never gets in. *)
Theorem values_within (P : T -> Prop) (cs : list Command) :
  P value ->
  Forall (command_within P) cs ->
  state_within P (state_of (run mount cs)).
Proof.
  intros Hv Hcs. rewrite mount_rendered.
  assert (H0 : state_within P initState).
  { repeat split; cbn [initState past present future];
      try assumption; constructor. }
  revert H0. generalize initState.
  induction Hcs as [|c cs Hc Hcs IH]; intros state Hst.
  - exact Hst.
  - rewrite run_cons.
    pose proof (step_within P state c Hv Hc Hst) as Hstep.
    rewrite step_rendered in *.
    destruct (call (rendered state) c); cbn [fst] in *; apply IH; assumption.
Qed.

End Hook.

Arguments mkState {T}.
Arguments past {T}.
Arguments present {T}.
Arguments future {T}.
Arguments Value {T}.
Arguments Func {T}.
Arguments Set_ {T}.
Arguments SetNotUndoable {T}.
Arguments Undo_ {T}.
Arguments Redo_ {T}.
Arguments Reset_ {T}.
Arguments CallSet {T}.
Arguments CallUndo {T}.
Arguments CallRedo {T}.
Arguments CallReset {T}.
Arguments state_of {T}.
Arguments mount {T}.
Arguments rendered {T}.
Arguments initState {T}.
Arguments reducer {T}.
Arguments step {T}.
Arguments run {T}.
Arguments reachable {T}.

(** ** The claims on concrete stores

    Stores of numbers, constructed with the value [0]. *)

Local Abbreviation num_store := (mount (JNum 0)).
Local Abbreviation num_run size := (run JUndefined (JNum 0) size num_store).
Local Abbreviation num_set n := (CallSet (Value (JNum n)) None).

(** The scenario of the hook's description, capacity [20]. *)
Example scenario_sets :
  state_of (num_run 20 [num_set 1; num_set 2; num_set 3]) =
  {| past := [JNum 0; JNum 1; JNum 2]; present := JNum 3; future := [] |}.
Proof. reflexivity. Qed.

Example scenario_undo_twice :
  state_of (num_run 20 [num_set 1; num_set 2; num_set 3; CallUndo; CallUndo]) =
  {| past := [JNum 0]; present := JNum 1; future := [JNum 3; JNum 2] |}.
Proof. reflexivity. Qed.

Example scenario_silent_then_reset :
  state_of (num_run 20 [num_set 1; num_set 2; CallUndo;
                        CallSet (Value (JNum 9)) (Some true)]) =
    {| past := [JNum 0]; present := JNum 9; future := [JNum 2] |} /\
  state_of (num_run 20 [num_set 1; num_set 2; CallUndo;
                        CallSet (Value (JNum 9)) (Some true); CallReset]) =
    {| past := []; present := JNum 0; future := [] |}.
Proof. split; reflexivity. Qed.

(** With [size = 0], [slice(-0)] keeps the whole of [past]. *)
Example size_zero_keeps_everything :
  state_of (num_run 0 [num_set 1; num_set 2; num_set 3]) =
  {| past := [JNum 0; JNum 1; JNum 2]; present := JNum 3; future := [] |}.
Proof. reflexivity. Qed.

(** C1, as stated, fails: with capacity [1], two undoable sets leave two
    entries in [past]. *)
Lemma past_exceeds_capacity :
  state_of (num_run 1 [num_set 1; num_set 2]) =
    {| past := [JNum 0; JNum 1]; present := JNum 2; future := [] |} /\
  1 < JsArray.len (past (state_of (num_run 1 [num_set 1; num_set 2]))).
Proof. split; reflexivity. Qed.

Lemma past_length_along_run_witness :
  0 < 1 /\
  JsArray.len (past (state_of
    (num_run 1 [num_set 1; num_set 2; CallUndo; CallRedo; num_set 3]))) <= 1 + 1 /\
  JsArray.len (past (state_of
    (num_run 1 (map (fun v => CallSet (Value v) None) [JNum 1; JNum 2; JNum 3])))) =
  Z.min (JsArray.len [JNum 1; JNum 2; JNum 3]) (1 + 1).
Proof.
  split; [reflexivity|].
  apply (past_length_along_run jsval JUndefined (JNum 0) 1). reflexivity.
Defined.

(** C2 fails on the code: after [set 1], [set 2], [undo], a [redo] leaves
    [past = [1]], where appending the old [present] to [past = [0]] within
    the capacity [20] gives [[0; 1]]. *)
Theorem redo_drops_past :
  state_of (num_run 20 [num_set 1; num_set 2; CallUndo]) =
    {| past := [JNum 0]; present := JNum 1; future := [JNum 2] |} /\
  state_of (num_run 20 [num_set 1; num_set 2; CallUndo; CallRedo]) =
    {| past := [JNum 1]; present := JNum 2; future := [] |} /\
  past (state_of (num_run 20 [num_set 1; num_set 2; CallUndo; CallRedo])) <>
    [JNum 0; JNum 1].
Proof. repeat split. discriminate. Qed.

Lemma set_undoable_witness :
  0 < 2 /\
  reducer JUndefined (JNum 0) 2
    {| past := [JNum 0; JNum 1; JNum 2]; present := JNum 3; future := [JNum 7] |}
    (Set_ (JNum 4)) =
  {| past := [JNum 1; JNum 2; JNum 3]; present := JNum 4; future := [JNum 7] |}.
Proof.
  split; [reflexivity|].
  exact (proj1 (set_undoable jsval JUndefined (JNum 0) 2
                  (mkState [JNum 0; JNum 1; JNum 2] (JNum 3) [JNum 7])
                  (JNum 4) eq_refl)).
Defined.

Lemma set_not_undoable_frame_witness :
  reachable JUndefined (JNum 0) 20 (num_run 20 [num_set 1; num_set 2; CallUndo]) /\
  snd (step JUndefined (JNum 0) 20
         (num_run 20 [num_set 1; num_set 2; CallUndo])
         (CallSet (Func inc) (Some true))) = None /\
  past (state_of (fst (step JUndefined (JNum 0) 20
         (num_run 20 [num_set 1; num_set 2; CallUndo])
         (CallSet (Func inc) (Some true))))) =
    past (state_of (num_run 20 [num_set 1; num_set 2; CallUndo])) /\
  future (state_of (fst (step JUndefined (JNum 0) 20
         (num_run 20 [num_set 1; num_set 2; CallUndo])
         (CallSet (Func inc) (Some true))))) =
    future (state_of (num_run 20 [num_set 1; num_set 2; CallUndo])).
Proof.
  assert (R : reachable JUndefined (JNum 0) 20
                (num_run 20 [num_set 1; num_set 2; CallUndo])).
  { apply reachable_run. constructor. }
  split; [exact R|].
  exact (proj2 (proj2 (proj2
    (set_not_undoable_frame jsval JUndefined (JNum 0) 20
       (initState (JNum 0)) (JNum 9) _ (Func inc) R)))).
Defined.

Lemma undo_effect_witness :
  [JNum 0; JNum 1] <> [] /\
  exists init x,
    [JNum 0; JNum 1] = init ++ [x] /\
    reducer JUndefined (JNum 0) 20
      {| past := [JNum 0; JNum 1]; present := JNum 2; future := [] |} Undo_ =
    {| past := init; present := x; future := [] ++ [JNum 2] |}.
Proof.
  split; [discriminate|].
  apply (undo_effect jsval JUndefined (JNum 0) 20
           (mkState [JNum 0; JNum 1] (JNum 2) [])).
  discriminate.
Defined.

Lemma undo_redo_guard_witness :
  reachable JUndefined (JNum 0) 20 num_store /\
  (snd (step JUndefined (JNum 0) 20 num_store CallUndo) =
     Some (Error "Undo not allowed") <->
   past (state_of num_store) = []) /\
  (snd (step JUndefined (JNum 0) 20 num_store CallRedo) =
     Some (Error "Redo not allowed") <->
   future (state_of num_store) = []).
Proof.
  pose proof (undo_redo_guard jsval JUndefined (JNum 0) 20 num_store
                (reachable_mount jsval JUndefined (JNum 0) 20))
    as (U & _ & R & _).
  split; [constructor|]. split; assumption.
Defined.

Example undo_redo_throw_on_fresh_store :
  step JUndefined (JNum 0) 20 num_store CallUndo =
    (num_store, Some (Error "Undo not allowed")) /\
  step JUndefined (JNum 0) 20 num_store CallRedo =
    (num_store, Some (Error "Redo not allowed")).
Proof. split; reflexivity. Qed.

Lemma undo_then_redo_witness :
  reachable JUndefined (JNum 0) 20 (num_run 20 [num_set 1; num_set 2]) /\
  past (state_of (num_run 20 [num_set 1; num_set 2])) <> [] /\
  snd (step JUndefined (JNum 0) 20 (num_run 20 [num_set 1; num_set 2]) CallUndo) =
    None /\
  snd (step JUndefined (JNum 0) 20
         (fst (step JUndefined (JNum 0) 20
                 (num_run 20 [num_set 1; num_set 2]) CallUndo)) CallRedo) =
    None /\
  present (state_of
    (fst (step JUndefined (JNum 0) 20
            (fst (step JUndefined (JNum 0) 20
                    (num_run 20 [num_set 1; num_set 2]) CallUndo)) CallRedo))) =
    present (state_of (num_run 20 [num_set 1; num_set 2])).
Proof.
  assert (R : reachable JUndefined (JNum 0) 20
                (num_run 20 [num_set 1; num_set 2])).
  { apply reachable_run. constructor. }
  assert (N : past (state_of (num_run 20 [num_set 1; num_set 2])) <> []).
  { discriminate. }
  split; [exact R|]. split; [exact N|].
  exact (undo_then_redo jsval JUndefined (JNum 0) 20 _ R N).
Defined.

Lemma reset_baseline_witness :
  reachable JUndefined (JNum 0) 20
    (num_run 20 [num_set 1; num_set 2; CallUndo]) /\
  step JUndefined (JNum 0) 20
    (num_run 20 [num_set 1; num_set 2; CallUndo]) CallReset =
    (num_store, None).
Proof.
  assert (R : reachable JUndefined (JNum 0) 20
                (num_run 20 [num_set 1; num_set 2; CallUndo])).
  { apply reachable_run. constructor. }
  split; [exact R|].
  exact (proj1 (reset_baseline jsval JUndefined (JNum 0) 20 _ R)).
Defined.

(** C9 fails on the code: on a store constructed with [0] and set to [5],
    [setState((prev) => prev + 1)] makes [present] [1], the successor of the
    value at mount, where [setState(6)] makes it [6]. *)
Theorem set_updater_is_stale :
  present (state_of (num_run 20 [num_set 5])) = JNum 5 /\
  state_of (num_run 20 [num_set 5; CallSet (Func inc) None]) =
    {| past := [JNum 0; JNum 5]; present := JNum 1; future := [] |} /\
  state_of (num_run 20 [num_set 5; num_set 6]) =
    {| past := [JNum 0; JNum 5]; present := JNum 6; future := [] |}.
Proof. repeat split. Qed.

Lemma past_bound_invariant_witness :
  0 < 1 /\
  JsArray.len (past (initState (JNum 0))) <= 1 + 1 /\
  JsArray.len (past (reducer JUndefined (JNum 0) 1
                       {| past := [JNum 0; JNum 1]; present := JNum 2;
                          future := [] |} (Set_ (JNum 3)))) <= 1 + 1.
Proof.
  pose proof (past_bound_invariant jsval JUndefined (JNum 0) 1 eq_refl)
    as (I & P & _).
  split; [reflexivity|]. split; [exact I|].
  apply P. discriminate.
Defined.

(** ** The further properties on concrete stores *)

Arguments thrown {T}.
Arguments returned_present {T}.
Arguments returned_setState {T}.
Arguments handlers_of {T}.
Arguments canUndo {T}.
Arguments canRedo {T}.
Arguments undo {T}.
Arguments redo {T}.
Arguments reset {T}.
Arguments command_within {T}.
Arguments state_within {T}.

Local Abbreviation num_reachable size := (reachable JUndefined (JNum 0) size).
Local Abbreviation num_step size := (step JUndefined (JNum 0) size).
Local Abbreviation num_thrown size := (thrown JUndefined (JNum 0) size).
Local Abbreviation is_num := (fun v : jsval => exists n, v = JNum n).

Lemma num_run_reachable (size : Z) (cs : list (Command jsval)) :
  num_reachable size (num_run size cs).
Proof. apply reachable_run. constructor. Qed.

Lemma returned_flags_witness :
  num_reachable 20 (num_run 20 [num_set 1]) /\
  returned_present (num_run 20 [num_set 1]) = JNum 1 /\
  (canUndo (handlers_of (num_run 20 [num_set 1])) = true <->
   past (state_of (num_run 20 [num_set 1])) <> []) /\
  (canRedo (handlers_of (num_run 20 [num_set 1])) = true <->
   future (state_of (num_run 20 [num_set 1])) <> []).
Proof.
  pose proof (returned_flags jsval JUndefined (JNum 0) 20 _
                (num_run_reachable 20 [num_set 1])) as (A & B & C & _).
  split; [apply num_run_reachable|]. split; [exact A|]. split; assumption.
Defined.


Lemma set_function_payload_witness :
  num_reachable 20 (num_run 20 [num_set 5]) /\
  num_step 20 (num_run 20 [num_set 5]) (CallSet (Func inc) None) =
    num_step 20 (num_run 20 [num_set 5]) (CallSet (Value (inc (JNum 0))) None) /\
  present (state_of
    (fst (num_step 20 (num_run 20 [num_set 5]) (CallSet (Func inc) None)))) =
    JNum 1.
Proof.
  pose proof (set_function_payload jsval JUndefined (JNum 0) 20 _ inc None
                (Value (JNum 0)) (num_run_reachable 20 [num_set 5]))
    as (_ & B & C).
  split; [apply num_run_reachable|]. split; assumption.
Defined.

Lemma set_then_undo_witness :
  num_reachable 1 (num_run 1 [num_set 1; num_set 2]) /\
  0 < 1 /\
  num_thrown 1 (num_run 1 [num_set 1; num_set 2]) [num_set 9; CallUndo] = [] /\
  state_of (run JUndefined (JNum 0) 1 (num_run 1 [num_set 1; num_set 2])
              [num_set 9; CallUndo]) =
    {| past := [JNum 1]; present := JNum 2; future := [JNum 9] |}.
Proof.
  pose proof (set_then_undo jsval JUndefined (JNum 0) 1 _ (JNum 9)
                (num_run_reachable 1 [num_set 1; num_set 2]) eq_refl)
    as (A & B & _).
  split; [apply num_run_reachable|]. split; [reflexivity|].
  split; [exact A | exact B].
Defined.

Lemma redo_then_undo_witness :
  num_reachable 20 (num_run 20 [num_set 1; num_set 2; CallUndo]) /\
  future (state_of (num_run 20 [num_set 1; num_set 2; CallUndo])) <> [] /\
  num_thrown 20 (num_run 20 [num_set 1; num_set 2; CallUndo])
    [CallRedo; CallUndo] = [] /\
  present (state_of (run JUndefined (JNum 0) 20
    (num_run 20 [num_set 1; num_set 2; CallUndo]) [CallRedo; CallUndo])) =
    JNum 1.
Proof.
  assert (N : future (state_of (num_run 20 [num_set 1; num_set 2; CallUndo]))
              <> []) by discriminate.
  pose proof (redo_then_undo jsval JUndefined (JNum 0) 20 _
                (num_run_reachable 20 [num_set 1; num_set 2; CallUndo]) N)
    as (A & B & _).
  split; [apply num_run_reachable|]. split; [exact N|].
  split; [exact A | exact B].
Defined.

Lemma redo_past_witness :
  num_reachable 20 (num_run 20 [num_set 1; num_set 2; num_set 3; CallUndo]) /\
  0 < 20 /\
  future (state_of (num_run 20 [num_set 1; num_set 2; num_set 3; CallUndo]))
    <> [] /\
  past (state_of (fst (num_step 20
    (num_run 20 [num_set 1; num_set 2; num_set 3; CallUndo]) CallRedo))) =
    [JNum 2].
Proof.
  assert (N : future (state_of
                (num_run 20 [num_set 1; num_set 2; num_set 3; CallUndo]))
              <> []) by discriminate.
  pose proof (redo_past jsval JUndefined (JNum 0) 20 _
                (num_run_reachable 20
                   [num_set 1; num_set 2; num_set 3; CallUndo]) eq_refl N)
    as (_ & B).
  split; [apply num_run_reachable|]. split; [reflexivity|].
  split; [exact N|]. apply B. discriminate.
Defined.

Lemma set_keeps_redo_witness :
  num_reachable 20 (num_run 20 [num_set 1; num_set 2]) /\
  past (state_of (num_run 20 [num_set 1; num_set 2])) <> [] /\
  num_thrown 20 (num_run 20 [num_set 1; num_set 2])
    [CallUndo; num_set 9; CallRedo] = [] /\
  present (state_of (run JUndefined (JNum 0) 20
    (num_run 20 [num_set 1; num_set 2]) [CallUndo; num_set 9; CallRedo])) =
    JNum 2.
Proof.
  assert (N : past (state_of (num_run 20 [num_set 1; num_set 2])) <> [])
    by discriminate.
  pose proof (set_keeps_redo jsval JUndefined (JNum 0) 20 _ (JNum 9)
                (num_run_reachable 20 [num_set 1; num_set 2]) N)
    as (A & B & _).
  split; [apply num_run_reachable|]. split; [exact N|].
  split; [exact A | exact B].
Defined.

Lemma undos_then_redos_witness :
  num_reachable 20 (num_run 20 [num_set 1; num_set 2; num_set 3]) /\
  (2 <= length (past (state_of (num_run 20 [num_set 1; num_set 2; num_set 3]))))%nat /\
  num_thrown 20 (num_run 20 [num_set 1; num_set 2; num_set 3])
    [CallUndo; CallUndo; CallRedo; CallRedo] = [] /\
  present (state_of (run JUndefined (JNum 0) 20
    (num_run 20 [num_set 1; num_set 2; num_set 3])
    [CallUndo; CallUndo; CallRedo; CallRedo])) = JNum 3.
Proof.
  assert (N : (2 <= length (past (state_of
                 (num_run 20 [num_set 1; num_set 2; num_set 3]))))%nat).
  { apply Nat.leb_le. reflexivity. }
  pose proof (undos_then_redos jsval JUndefined (JNum 0) 20 _ 2%nat
                (num_run_reachable 20 [num_set 1; num_set 2; num_set 3]) N)
    as (A & B & _).
  split; [apply num_run_reachable|]. split; [exact N|].
  split; [exact A | exact B].
Defined.

Lemma sets_then_undos_witness :
  num_reachable 1 (num_run 1 [num_set 1; num_set 2; num_set 3]) /\
  0 < 1 /\
  JsArray.len [JNum 4; JNum 5] <= 1 + 1 /\
  num_thrown 1 (num_run 1 [num_set 1; num_set 2; num_set 3])
    [num_set 4; num_set 5; CallUndo; CallUndo] = [] /\
  present (state_of (run JUndefined (JNum 0) 1
    (num_run 1 [num_set 1; num_set 2; num_set 3])
    [num_set 4; num_set 5; CallUndo; CallUndo])) = JNum 3 /\
  future (state_of (run JUndefined (JNum 0) 1
    (num_run 1 [num_set 1; num_set 2; num_set 3])
    [num_set 4; num_set 5; CallUndo; CallUndo])) = [JNum 5; JNum 4].
Proof.
  assert (N : JsArray.len [JNum 4; JNum 5] <= 1 + 1) by discriminate.
  pose proof (sets_then_undos jsval JUndefined (JNum 0) 1 _ [JNum 4; JNum 5]
                (num_run_reachable 1 [num_set 1; num_set 2; num_set 3])
                eq_refl N)
    as (A & B & C).
  split; [apply num_run_reachable|]. split; [reflexivity|]. split; [exact N|].
  split; [exact A|]. split; [exact B | exact C].
Defined.

Lemma sets_window_witness :
  0 < 1 /\
  past (state_of (num_run 1 [num_set 1; num_set 2; num_set 3; num_set 4])) ++
  [present (state_of (num_run 1 [num_set 1; num_set 2; num_set 3; num_set 4]))] =
  [JNum 2; JNum 3; JNum 4].
Proof.
  split; [reflexivity|].
  exact (sets_window jsval JUndefined (JNum 0) 1
           [JNum 1; JNum 2; JNum 3; JNum 4] eq_refl).
Defined.

Lemma sets_keep_all_witness :
  0 = 0 /\
  past (state_of (num_run 0 [num_set 1; num_set 2; num_set 3])) ++
  [present (state_of (num_run 0 [num_set 1; num_set 2; num_set 3]))] =
  [JNum 0; JNum 1; JNum 2; JNum 3].
Proof.
  split; [reflexivity|].
  exact (sets_keep_all jsval JUndefined (JNum 0) 0
           [JNum 1; JNum 2; JNum 3] eq_refl).
Defined.

Lemma values_within_witness :
  is_num (JNum 0) /\
  Forall (command_within is_num)
    [num_set 1; CallSet (Func inc) None; CallUndo; CallUndo; CallUndo;
     CallRedo; CallReset] /\
  state_within is_num
    (state_of (num_run 20
       [num_set 1; CallSet (Func inc) None; CallUndo; CallUndo; CallUndo;
        CallRedo; CallReset])).
Proof.
  assert (V : is_num (JNum 0)) by (eexists; reflexivity).
  assert (C : Forall (command_within is_num)
                [num_set 1; CallSet (Func inc) None; CallUndo; CallUndo;
                 CallUndo; CallRedo; CallReset]).
  { repeat constructor.
    - eexists; reflexivity.
    - intros x [n ->]. eexists; reflexivity. }
  split; [exact V|]. split; [exact C|].
  exact (values_within jsval JUndefined (JNum 0) 20 is_num _ V C).
Defined.

Lemma undo_depth_capped_witness :
  num_reachable 1 (num_run 1 [num_set 1]) /\
  0 < 1 /\
  1 + 1 <= JsArray.len [JNum 2; JNum 3; JNum 4] /\
  num_thrown 1 (num_run 1 [num_set 1])
    [num_set 2; num_set 3; num_set 4; CallUndo; CallUndo] = [] /\
  num_thrown 1 (num_run 1 [num_set 1])
    [num_set 2; num_set 3; num_set 4; CallUndo; CallUndo; CallUndo] =
    [Error "Undo not allowed"].
Proof.
  assert (N : 1 + 1 <= JsArray.len [JNum 2; JNum 3; JNum 4]) by discriminate.
  pose proof (undo_depth_capped jsval JUndefined (JNum 0) 1 _
                [JNum 2; JNum 3; JNum 4]
                (num_run_reachable 1 [num_set 1]) eq_refl N) as (A & B).
  split; [apply num_run_reachable|]. split; [reflexivity|]. split; [exact N|].
  split; [exact A | exact B].
Defined.
